(** * PlayNite verification scripts: the two Playwright scenarios

    The repository holds two scripts,
    [jules-scratch/verification/verify_page_load.py] and
    [jules-scratch/verification/verify_age_verification.py].  Each defines
    a function [run(playwright)] that is a straight line of calls into the
    Playwright library, and calls it inside [with sync_playwright()].

    The embedding is shallow.  A call into the library is an effect
    [perform c] of a small exception-and-state monad; the library itself
    (the browser driver) is not part of the repository and is a parameter
    of the development.  A Python exception raised by a call ends the
    function at that call, because neither script has a [try] block. *)

From Stdlib Require Import Ascii.
From stdpp Require Import gmap strings list fin_maps pretty.

Set Default Proof Using "Type".
Set Warnings "-clear-no-such-hyp".

(** ** Values passed to the library *)

(** The [name=] argument of [get_by_role] and the argument of
    [to_have_title]: a plain string, or a compiled regular expression with
    its [re.IGNORECASE] flag. *)
Inductive name_pattern :=
  | Name (s : string)
  | Re (pattern : string) (ignorecase : bool).

(** A Playwright locator.  Building one queries nothing: the page is only
    consulted by the action or expectation applied to it. *)
Inductive locator :=
  | GetByRole (role : string) (name : name_pattern)
  | Locator (selector : string).

(** The calls the two scripts make, one constructor per library method. *)
Inductive call :=
  | Launch (headless : bool)
  | NewPage
  | Goto (url : string)
  | Click (target : locator)
  | ToHaveTitle (expected : name_pattern)
  | ToBeVisible (target : locator)
  | ToHaveText (target : locator) (expected : string)
  | Screenshot (path : string)
  | Close.

#[global] Instance name_pattern_eq_dec : EqDecision name_pattern.
Proof. solve_decision. Defined.
#[global] Instance locator_eq_dec : EqDecision locator.
Proof. solve_decision. Defined.
#[global] Instance call_eq_dec : EqDecision call.
Proof. solve_decision. Defined.

(** The double quote character, for the attribute selector. *)
Definition dquote : string := String (Ascii.ascii_of_nat 34) EmptyString.

Definition IGNORECASE : bool := true.

(** The literals of the scripts. *)
Definition target_url : string := "http://localhost:9002".
Definition page_load_screenshot_path : string :=
  "jules-scratch/verification/verification.png".
Definition age_verification_screenshot_path : string :=
  "jules-scratch/verification/verification.png".
Definition form_error_selector : string :=
  "[data-testid=" +:+ dquote +:+ "form-error" +:+ dquote +:+ "]".

(** ** The monad of a script run *)

(** What one call did: the call, and the exception it raised if any. *)
Record event (E : Type) := Event { ev_call : call; ev_exn : option E }.
Arguments Event {E} _ _.
Arguments ev_call {E} _.
Arguments ev_exn {E} _.

(** The state threaded through a run: the outside world (browser, page,
    disk) and the calls made so far, oldest first. *)
Record st (W E : Type) := St { world : W; trace : list (event E) }.
Arguments St {W E} _ _.
Arguments world {W E} _.
Arguments trace {W E} _.

(** How a Python function body ends. *)
Inductive res (E A : Type) :=
  | Returned (a : A)
  | Raised (e : E).
Arguments Returned {E A} _.
Arguments Raised {E A} _.

Definition M (W E A : Type) : Type := st W E → res E A * st W E.

#[global] Instance M_ret {W E} : MRet (M W E) := λ A a s, (Returned a, s).
#[global] Instance M_bind {W E} : MBind (M W E) := λ A B f m s,
  match m s with
  | (Returned a, s') => f a s'
  | (Raised e, s') => (Raised e, s')
  end.

Section Runner.
Context {W E : Type}.

(** The browser driver: what a call does to the world, and the exception
    it raises if it fails. *)
Variable drv : call → W → option E * W.

Definition perform (c : call) : M W E () := λ s,
  let '(r, w') := drv c (world s) in
  let s' := St w' (trace s ++ [Event c r]) in
  match r with
  | None => (Returned (), s')
  | Some e => (Raised e, s')
  end.

(** The library methods, named as the scripts call them. *)
Definition launch (headless : bool) : M W E () := perform (Launch headless).
Definition new_page : M W E () := perform NewPage.
Definition goto (url : string) : M W E () := perform (Goto url).
Definition get_by_role (role : string) (name : name_pattern) : locator :=
  GetByRole role name.
Definition click (target : locator) : M W E () := perform (Click target).
Definition to_have_title (p : name_pattern) : M W E () :=
  perform (ToHaveTitle p).
Definition to_be_visible (target : locator) : M W E () :=
  perform (ToBeVisible target).
Definition to_have_text (target : locator) (expected : string) : M W E () :=
  perform (ToHaveText target expected).
Definition screenshot (path : string) : M W E () := perform (Screenshot path).
Definition close : M W E () := perform Close.

(** [run] of verify_page_load.py. *)
Definition run_page_load : M W E () :=
  launch true ;;
  new_page ;;
  goto "http://localhost:9002" ;;
  to_have_title (Re "PlayNite" IGNORECASE) ;;
  screenshot "jules-scratch/verification/verification.png" ;;
  close.

(** [run] of verify_age_verification.py. *)
Definition run_age_verification : M W E () :=
  launch true ;;
  new_page ;;
  goto "http://localhost:9002" ;;
  click (get_by_role "combobox" (Re "month" IGNORECASE)) ;;
  click (get_by_role "option" (Name "February")) ;;
  click (get_by_role "combobox" (Re "day" IGNORECASE)) ;;
  click (get_by_role "option" (Name "30")) ;;
  click (get_by_role "combobox" (Re "year" IGNORECASE)) ;;
  click (get_by_role "option" (Name "2000")) ;;
  click (get_by_role "button" (Re "enter" IGNORECASE)) ;;
  let error_message := Locator form_error_selector in
  to_be_visible error_message ;;
  to_have_text error_message "Please enter a valid date." ;;
  screenshot "jules-scratch/verification/verification.png" ;;
  close.

(** The two scenarios of the repository. *)
Inductive scenario := PageLoad | AgeVerification.

Definition run (sc : scenario) : M W E () :=
  match sc with
  | PageLoad => run_page_load
  | AgeVerification => run_age_verification
  end.

(** A script started on world [w], with nothing traced yet. *)
Definition start (w : W) : st W E := St w [].
Definition outcome (sc : scenario) (w : W) : res E () := (run sc (start w)).1.
Definition final (sc : scenario) (w : W) : W := world (run sc (start w)).2.
Definition calls_made (sc : scenario) (w : W) : list (event E) :=
  trace (run sc (start w)).2.

(** ** The scripts as lists of calls *)

(** Statements of a function body run one after the other; the first
    exception ends the body. *)
Fixpoint exec (cs : list call) : M W E () :=
  match cs with
  | [] => mret ()
  | c :: cs' => perform c ;; exec cs'
  end.

(** The steps of a scenario: what [run] does between opening the page
    and closing the browser. *)
Definition steps (sc : scenario) : list call :=
  match sc with
  | PageLoad =>
      [ Goto target_url;
        ToHaveTitle (Re "PlayNite" true);
        Screenshot page_load_screenshot_path ]
  | AgeVerification =>
      [ Goto target_url;
        Click (GetByRole "combobox" (Re "month" true));
        Click (GetByRole "option" (Name "February"));
        Click (GetByRole "combobox" (Re "day" true));
        Click (GetByRole "option" (Name "30"));
        Click (GetByRole "combobox" (Re "year" true));
        Click (GetByRole "option" (Name "2000"));
        Click (GetByRole "button" (Re "enter" true));
        ToBeVisible (Locator form_error_selector);
        ToHaveText (Locator form_error_selector) "Please enter a valid date.";
        Screenshot age_verification_screenshot_path ]
  end.

(** Every call of a script, in the order it is written. *)
Definition script (sc : scenario) : list call :=
  Launch true :: NewPage :: steps sc ++ [Close].

End Runner.

(** ** What a trace looks like *)

(** The call went through without an exception. *)
Definition passed {E} (ev : event E) : Prop := ev_exn ev = None.

#[global] Instance passed_dec {E} (ev : event E) : Decision (passed ev).
Proof. unfold passed. destruct (ev_exn ev); [right | left]; done. Defined.

(** The traces a body [cs] can leave: all of [cs] with no exception and a
    normal return, or a prefix of [cs] whose last call alone raised, and
    that exception as the result. *)
Inductive shape {E} (cs : list call) : res E () → list (event E) → Prop :=
  | shape_returned evs :
      ev_call <$> evs = cs →
      Forall passed evs →
      shape cs (Returned ()) evs
  | shape_raised evs c e :
      ev_call <$> evs = take (length evs) cs →
      Forall passed evs →
      cs !! length evs = Some c →
      shape cs (Raised e) (evs ++ [Event c (Some e)]).

(** ** A counting test double

    The smallest driver there is: its world is the number of calls it has
    served, and it raises on the call numbered [bad] (from 0).  The
    counter is the side effect by which a test observes which calls were
    made. *)
Definition failing_at (bad : nat) (c : call) (served : nat)
  : option string * nat :=
  (if bad =? served then Some "TimeoutError" else None, S served).

(** A driver on which every call succeeds. *)
Definition steady (c : call) (served : nat) : option string * nat :=
  (None, S served).

(** ** Text helpers of the simulated browser *)

Definition lower_char (c : ascii) : ascii :=
  let n := Ascii.nat_of_ascii c in
  if (65 <=? n) && (n <=? 90) then Ascii.ascii_of_nat (n + 32) else c.

Definition upper_char (c : ascii) : ascii :=
  let n := Ascii.nat_of_ascii c in
  if (97 <=? n) && (n <=? 122) then Ascii.ascii_of_nat (n - 32) else c.

Fixpoint lower (s : string) : string :=
  match s with
  | EmptyString => EmptyString
  | String c s' => String (lower_char c) (lower s')
  end.

Fixpoint upper (s : string) : string :=
  match s with
  | EmptyString => EmptyString
  | String c s' => String (upper_char c) (upper s')
  end.

(** [contains p s]: [p] occurs in [s] as a contiguous substring. *)
Fixpoint contains (p s : string) : bool :=
  String.prefix p s ||
  match s with
  | EmptyString => false
  | String _ s' => contains p s'
  end.

Fixpoint ltrim (s : string) : string :=
  match s with
  | EmptyString => EmptyString
  | String c s' => if Ascii.is_space c then ltrim s' else s
  end.

Definition rtrim (s : string) : string := String.rev (ltrim (String.rev s)).

(** Leading and trailing white space removed, nothing else touched. *)
Definition trim (s : string) : string := rtrim (ltrim s).

(** The directories a relative path goes through: for [a/b/c.png],
    [a] and [a/b]. *)
Fixpoint parents_from (seen rest : string) : list string :=
  match rest with
  | EmptyString => []
  | String c rest' =>
      if Ascii.eqb c "/"%char
      then seen :: parents_from (seen +:+ "/") rest'
      else parents_from (seen +:+ String c EmptyString) rest'
  end.

Definition parents (path : string) : list string := parents_from "" path.

(** ** The simulated browser *)

(** Modelled from the spec: the failure taxonomy of section 7.  The
    Playwright exception classes are not in the repository. *)
Inductive step_error :=
  | ElementNotFound
  | AmbiguousMatch
  | AssertionFailed
  | NavigationTimeout
  | IOError.

#[global] Instance step_error_eq_dec : EqDecision step_error.
Proof. solve_decision. Defined.

(** What the driver sees of one control of the page. *)
Record element := Element {
  el_role : string;      (* accessible role *)
  el_name : string;      (* accessible name *)
  el_testid : string;    (* data-testid attribute, empty if none *)
  el_text : string;      (* visible text *)
  el_visible : bool
}.

#[global] Instance element_eq_dec : EqDecision element.
Proof. solve_decision. Defined.

Record page := Page { title : string; elements : list element }.

(** Modelled from the spec: the target application of section 6, as far
    as a driver meets it.  It answers a URL with a state or not at all,
    shows a page for each state, and reacts to a click on a control.  The
    application is not in the repository. *)
Record app (S : Type) := App {
  serve : string → option S;
  view : S → page;
  on_click : element → S → S
}.
Arguments App {S} _ _ _.
Arguments serve {S} _ _.
Arguments view {S} _ _.
Arguments on_click {S} _ _ _.

(** Modelled from the spec: what the driver boundary of section 6 acts
    on, the browsing context, the page it shows, and the disk with its
    files, its directories and the paths that cannot be written.  Browser
    and filesystem are not in the repository. *)
Record browser (S : Type) := Browser {
  is_open : bool;                      (* a browsing context is open *)
  has_page : bool;
  current : option S;                  (* state of the page last loaded *)
  files : gmap string (list Byte.byte);
  dirs : gset string;
  read_only : gset string              (* paths that cannot be written *)
}.
Arguments Browser {S} _ _ _ _ _ _.
Arguments is_open {S} _.
Arguments has_page {S} _.
Arguments current {S} _.
Arguments files {S} _.
Arguments dirs {S} _.
Arguments read_only {S} _.

(** Modelled from the spec: name matching of section 4.1, a
    case-insensitive substring match on the accessible name.  The patterns
    of the scripts are made of letters only, so that searching for the
    regular expression is searching for the substring; a pattern compiled
    without [re.IGNORECASE] is compared as it is. *)
Definition name_matches (p : name_pattern) (accessible : string) : bool :=
  match p with
  | Name s => contains (lower s) (lower accessible)
  | Re pattern true => contains (lower pattern) (lower accessible)
  | Re pattern false => contains pattern accessible
  end.

(** The attribute selector that reaches a test identifier. *)
Definition testid_selector (id : string) : string :=
  "[data-testid=" +:+ dquote +:+ id +:+ dquote +:+ "]".

Definition el_matches (l : locator) (el : element) : bool :=
  match l with
  | GetByRole role p =>
      bool_decide (el_role el = role) && name_matches p (el_name el)
  | Locator selector =>
      bool_decide (selector = testid_selector (el_testid el))
  end.

Definition candidates (l : locator) (pg : option page) : list element :=
  match pg with
  | None => []
  | Some pg => List.filter (el_matches l) (elements pg)
  end.

(** Modelled from the spec: resolve-to-element-or-fail of sections 4.1
    and 9.  No control is [ElementNotFound], several are
    [AmbiguousMatch].  The wait of the driver is not modelled: the page is
    the one the driver sees when the wait ends. *)
Definition resolve (l : locator) (pg : option page) : step_error + element :=
  match candidates l pg with
  | [] => inl ElementNotFound
  | [el] => inr el
  | _ :: _ :: _ => inl AmbiguousMatch
  end.

Definition png_signature : list Byte.byte :=
  [Byte.x89; Byte.x50; Byte.x4e; Byte.x47; Byte.x0d; Byte.x0a; Byte.x1a; Byte.x0a].

Definition visible_text (el : element) : string :=
  if el_visible el then el_name el +:+ el_text el else "".

(** Modelled from the spec: the page image a screenshot captures
    (section 4.1), here the PNG signature followed by what the page
    shows.  The renderer is not in the repository. *)
Definition capture (pg : option page) : list Byte.byte :=
  png_signature ++
  match pg with
  | None => []
  | Some pg =>
      String.list_byte_of_string
        (title pg +:+ foldr (λ el acc, visible_text el +:+ acc) "" (elements pg))
  end.

Definition shown {S} (a : app S) (w : browser S) : option page :=
  view a <$> current w.

(** Modelled from the spec: the driver boundary of section 6 with the
    step semantics of section 4.1.  Playwright is not in the repository.
    A failing call leaves the world as it was. *)
Definition sim {S} (a : app S) (c : call) (w : browser S)
  : option step_error * browser S :=
  match c with
  | Launch _ =>
      (None, Browser true (has_page w) (current w) (files w) (dirs w) (read_only w))
  | NewPage =>
      (None, Browser (is_open w) true None (files w) (dirs w) (read_only w))
  | Goto url =>
      match serve a url with
      | Some s =>
          (None, Browser (is_open w) (has_page w) (Some s)
                   (files w) (dirs w) (read_only w))
      | None => (Some NavigationTimeout, w)
      end
  | Click l =>
      match resolve l (shown a w) with
      | inl e => (Some e, w)
      | inr el =>
          (None, Browser (is_open w) (has_page w) (on_click a el <$> current w)
                   (files w) (dirs w) (read_only w))
      end
  | ToHaveTitle p =>
      match shown a w with
      | Some pg => if name_matches p (title pg) then (None, w)
                   else (Some AssertionFailed, w)
      | None => (Some AssertionFailed, w)
      end
  | ToBeVisible l =>
      match resolve l (shown a w) with
      | inl e => (Some e, w)
      | inr el => if el_visible el then (None, w) else (Some AssertionFailed, w)
      end
  | ToHaveText l expected =>
      match resolve l (shown a w) with
      | inl e => (Some e, w)
      | inr el =>
          if bool_decide (trim (el_text el) = expected) then (None, w)
          else (Some AssertionFailed, w)
      end
  | Screenshot path =>
      if bool_decide (path ∈ read_only w) then (Some IOError, w)
      else
        (None, Browser (is_open w) (has_page w) (current w)
                 (<[path := capture (shown a w)]> (files w))
                 (list_to_set (parents path) ∪ dirs w)
                 (read_only w))
  | Close =>
      (None, Browser false false (current w) (files w) (dirs w) (read_only w))
  end.

(** ** The age check, a target application for the simulated browser *)

(** The state of the age form: which list is open and what was chosen. *)
Record form := Form {
  opened : option string;
  month : option string;
  day : option string;
  year : option string;
  submitted : bool
}.

Definition month_names : list string :=
  [ "January"; "February"; "March"; "April"; "May"; "June"; "July";
    "August"; "September"; "October"; "November"; "December" ].
Definition day_labels : list string := pretty <$> seq 1 31.
Definition first_year : nat := 1900.
Definition year_labels : list string := pretty <$> seq first_year 126.

Definition position (x : string) (l : list string) : option nat :=
  fst <$> list_find (λ y, y = x) l.

Definition leap (y : nat) : bool :=
  (y mod 4 =? 0) && (negb (y mod 100 =? 0) || (y mod 400 =? 0)).

(** Days of month [m] (from 1) in year [y]. *)
Definition days_in_month (m y : nat) : nat :=
  if m =? 2 then (if leap y then 29 else 28)
  else if (m =? 4) || (m =? 6) || (m =? 9) || (m =? 11) then 30
  else 31.

(** The three choices name a day of the calendar. *)
Definition date_ok (g : form) : bool :=
  match month g ≫= (λ m, position m month_names),
        day g ≫= (λ d, position d day_labels),
        year g ≫= (λ y, position y year_labels) with
  | Some m, Some d, Some y => S d <=? days_in_month (S m) (first_year + y)
  | _, _, _ => false
  end.

Definition combobox (label : string) (chosen : option string) : element :=
  Element "combobox" label "" (default "" chosen) true.

Definition option_of (label : string) : element :=
  Element "option" label "" label true.

Definition open_options (g : form) : list element :=
  match opened g with
  | Some box =>
      if bool_decide (box = "Month") then option_of <$> month_names
      else if bool_decide (box = "Day") then option_of <$> day_labels
      else if bool_decide (box = "Year") then option_of <$> year_labels
      else []
  | None => []
  end.

Definition form_error : element :=
  Element "alert" "" "form-error" "Please enter a valid date." true.

(** Modelled from the spec: the target application contract of section 6.
    Three comboboxes named Month, Day and Year offer their options by
    label, a button is named Enter, the title holds PlayNite, and
    submitting a date that is not on the calendar shows the element with
    test identifier form-error.  The application is not in the
    repository. *)
Definition form_view (g : form) : page :=
  Page "PlayNite"
    ([ combobox "Month" (month g); combobox "Day" (day g);
       combobox "Year" (year g) ]
     ++ open_options g
     ++ [ Element "button" "Enter" "" "Enter" true ]
     ++ (if submitted g && negb (date_ok g) then [form_error] else [])).

Definition form_click (el : element) (g : form) : form :=
  if bool_decide (el_role el = "combobox") then
    Form (Some (el_name el)) (month g) (day g) (year g) (submitted g)
  else if bool_decide (el_role el = "option") then
    match opened g with
    | Some box =>
        if bool_decide (box = "Month") then
          Form None (Some (el_name el)) (day g) (year g) (submitted g)
        else if bool_decide (box = "Day") then
          Form None (month g) (Some (el_name el)) (year g) (submitted g)
        else if bool_decide (box = "Year") then
          Form None (month g) (day g) (Some (el_name el)) (submitted g)
        else g
    | None => g
    end
  else if bool_decide (el_role el = "button") then
    Form (opened g) (month g) (day g) (year g) true
  else g.

Definition age_check : app form :=
  App (λ url, if bool_decide (url = target_url)
              then Some (Form None None None None false) else None)
      form_view form_click.

(** An application that answers no URL: the server is down. *)
Definition offline : app () :=
  App (λ _, None) (λ _, Page "" []) (λ _ s, s).

(** A fresh machine: no browser, an empty disk, everything writable. *)
Definition fresh {S} : browser S := Browser false false None ∅ ∅ ∅.

(** The same machine with the screenshot path write-protected. *)
Definition write_protected {S} : browser S :=
  Browser false false None ∅ ∅ {[ page_load_screenshot_path ]}.



(** The path of the screenshot of a scenario. *)
Definition screenshot_path (sc : scenario) : string :=
  match sc with
  | PageLoad => page_load_screenshot_path
  | AgeVerification => age_verification_screenshot_path
  end.

(** The age script up to its last expectation, before the screenshot. *)
Definition age_script_before_screenshot : list call :=
  [ Launch true; NewPage; Goto "http://localhost:9002";
    Click (GetByRole "combobox" (Re "month" true));
    Click (GetByRole "option" (Name "February"));
    Click (GetByRole "combobox" (Re "day" true));
    Click (GetByRole "option" (Name "30"));
    Click (GetByRole "combobox" (Re "year" true));
    Click (GetByRole "option" (Name "2000"));
    Click (GetByRole "button" (Re "enter" true));
    ToBeVisible (Locator form_error_selector);
    ToHaveText (Locator form_error_selector) "Please enter a valid date." ].

(** The form after the age script: 30 February 2000, submitted. *)
Definition february_30_2000 : form :=
  Form None (Some "February") (Some "30") (Some "2000") true.

(** ** The [with sync_playwright()] block of the scripts *)

(** A context manager as the [with] statement uses it.  [__enter__]
    raises or hands over its value.  [__exit__] is told the exception in
    flight, if there is one; it raises, or it returns a value whose truth
    asks for that exception to be dropped.  What the manager of
    [sync_playwright()] does on entering and leaving is the library's
    business, and a parameter here. *)
Record manager (W E : Type) := Manager {
  enter : W → option E * W;
  leave : option E → W → res E bool * W
}.
Arguments Manager {W E} _ _.
Arguments enter {W E} _ _.
Arguments leave {W E} _ _ _.

(** How a script ended: its result, the world it left, and the calls
    [run] made. *)
Record ending (W E : Type) := Ending {
  result : res E ();
  after : W;
  made : list (event E)
}.
Arguments Ending {W E} _ _ _.
Arguments result {W E} _.
Arguments after {W E} _.
Arguments made {W E} _.

(** The exception a body ended with, if it did. *)
Definition in_flight {E A} (r : res E A) : option E :=
  match r with
  | Returned _ => None
  | Raised e => Some e
  end.

(** The last two lines of both scripts,
    [with sync_playwright() as playwright: run(playwright)].
    An exception of [__enter__] ends the script before the body.
    Otherwise [run] is called, then [__exit__] with the exception [run]
    ended with; an exception of [__exit__] replaces it, a true answer
    drops it, and any other answer lets it go on. *)
Definition main {W E} (mgr : manager W E) (drv : call → W → option E * W)
    (sc : scenario) (w : W) : ending W E :=
  match enter mgr w with
  | (Some e, w1) => Ending (Raised e) w1 []
  | (None, w1) =>
      let body := run drv sc (start w1) in
      let answer := leave mgr (in_flight body.1) (world body.2) in
      Ending
        match answer.1, body.1 with
        | Raised e', _ => Raised e'
        | Returned _, Returned _ => Returned ()
        | Returned drop, Raised e => if drop then Returned () else Raised e
        end
        answer.2 (trace body.2)
  end.

(** ** More test doubles *)

(** A manager that counts itself in the number of calls served, and on
    leaving neither raises nor drops an exception. *)
Definition counting_manager : manager nat string :=
  Manager (λ served, (None, S served))
          (λ _ served, (Returned false, S served)).

(** A driver on which every click raises and every other call succeeds. *)
Definition no_clicks (c : call) (served : nat) : option string * nat :=
  (match c with Click _ => Some "TimeoutError" | _ => None end, S served).

(** A driver that counts the calls served and, apart, the screenshots
    taken; it raises on the call numbered [bad]. *)
Definition shot_counter (bad : nat) (c : call) (w : nat * nat)
  : option string * (nat * nat) :=
  if bad =? w.1 then (Some "TimeoutError", (S w.1, w.2))
  else (None, (S w.1, match c with Screenshot _ => S w.2 | _ => w.2 end)).

(** * Properties of the runs *)

Section RunnerFacts.
Context {W E : Type}.
Variable drv : call → W → option E * W.

Implicit Types (s : st W E) (w : W) (cs : list call) (sc : scenario).

Lemma bind_ext (m : M W E ()) (f g : M W E ()) s :
  (∀ s', f s' = g s') → (m ;; f) s = (m ;; g) s.
Proof.
  intros Hfg. unfold mbind, M_bind.
  destruct (m s) as [[[]|e] s']; [apply Hfg | reflexivity].
Qed.

Lemma perform_ret c s : (perform drv c ;; mret ()) s = perform drv c s.
Proof.
  unfold mbind, M_bind, mret, M_ret, perform.
  destruct (drv c (world s)) as [[e|] w']; reflexivity.
Qed.

Lemma bind_assoc (m1 m2 m3 : M W E ()) s :
  ((m1 ;; m2) ;; m3) s = (m1 ;; (m2 ;; m3)) s.
Proof.
  unfold mbind, M_bind.
  destruct (m1 s) as [[[]|e] s']; reflexivity.
Qed.

Lemma exec_app cs1 cs2 s :
  exec drv (cs1 ++ cs2) s = (exec drv cs1 ;; exec drv cs2) s.
Proof.
  revert s. induction cs1 as [|c cs1 IH]; intros s; simpl.
  - reflexivity.
  - rewrite bind_assoc. apply bind_ext, IH.
Qed.

(** Each [run] is its script, call after call. *)
Lemma run_is_exec sc s : run drv sc s = exec drv (script sc) s.
Proof.
  destruct sc; unfold run, run_page_load, run_age_verification, script; simpl;
    unfold launch, new_page, goto, click, to_have_title, to_be_visible,
      to_have_text, screenshot, close, get_by_role;
    repeat (apply bind_ext; intros ?);
    symmetry; apply perform_ret.
Qed.

Lemma shape_cons cs c (r : res E ()) evs :
  shape cs r evs → shape (c :: cs) r (Event c None :: evs).
Proof.
  destruct 1 as [evs Hc Hp | evs c' e Hc Hp Hl].
  - apply shape_returned; [simpl; by f_equal | by constructor].
  - apply (shape_raised (c :: cs) (Event c None :: evs) c' e).
    + simpl. by f_equal.
    + by constructor.
    + done.
Qed.

(** The trace of a body grows the trace it starts from by a well-shaped
    list of events. *)
Lemma exec_shape cs s :
  ∃ evs, trace (exec drv cs s).2 = trace s ++ evs
         ∧ shape cs (exec drv cs s).1 evs.
Proof.
  revert s. induction cs as [|c cs IH]; intros s.
  - exists []. simpl. split; [by rewrite app_nil_r|]. by apply shape_returned.
  - simpl. unfold mbind, M_bind, perform.
    destruct (drv c (world s)) as [[e|] w'] eqn:Hd.
    + exists [Event c (Some e)]. split; [done|].
      by apply (shape_raised (c :: cs) [] c e).
    + destruct (IH (St w' (trace s ++ [Event c None]))) as (evs & Ht & Hs).
      exists (Event c None :: evs). split.
      * rewrite Ht. simpl. by rewrite <- app_assoc.
      * by apply shape_cons.
Qed.

Lemma run_shape sc w :
  shape (script sc) (outcome drv sc w) (calls_made drv sc w).
Proof.
  unfold outcome, calls_made. rewrite run_is_exec.
  destruct (exec_shape (script sc) (start w)) as (evs & Ht & Hs).
  rewrite Ht. exact Hs.
Qed.

End RunnerFacts.

(** ** Consequences of the shape of a trace *)

Section ShapeFacts.
Context {E : Type}.
Implicit Types (cs : list call) (r : res E ()) (evs : list (event E)).

(** The calls made are the first calls of the body, in its order. *)
Lemma shape_prefix cs r evs :
  shape cs r evs → ev_call <$> evs = take (length evs) cs.
Proof.
  destruct 1 as [evs Hc Hp | evs c e Hc Hp Hl].
  - rewrite <- (length_fmap ev_call evs), Hc. by rewrite firstn_all.
  - rewrite fmap_app, length_app. simpl.
    rewrite Nat.add_1_r, (take_S_r _ _ c Hl). by rewrite Hc.
Qed.

(** A call that raised is the last call made. *)
Lemma shape_failure_is_last cs r evs k ev :
  shape cs r evs → evs !! k = Some ev → ¬ passed ev → length evs = S k.
Proof.
  destruct 1 as [evs Hc Hp | evs c e Hc Hp Hl]; intros Hk Hev.
  - exfalso. apply Hev. eapply Forall_lookup_1; eauto.
  - rewrite length_app. simpl. rewrite Nat.add_1_r. f_equal.
    destruct (decide (k < length evs)) as [Hlt|Hge].
    + exfalso. apply Hev. rewrite lookup_app_l in Hk by done.
      eapply Forall_lookup_1; eauto.
    + apply lookup_lt_Some in Hk. rewrite length_app in Hk. simpl in Hk. lia.
Qed.

(** The call numbered [k] of the trace is the call numbered [k] of the
    body. *)
Lemma shape_call_at cs r evs k ev :
  shape cs r evs → evs !! k = Some ev → cs !! k = Some (ev_call ev).
Proof.
  intros Hs Hk.
  assert ((ev_call <$> evs) !! k = Some (ev_call ev)) as Hf
    by (by rewrite list_lookup_fmap, Hk).
  rewrite (shape_prefix _ _ _ Hs) in Hf.
  by apply lookup_take_Some in Hf as [? _].
Qed.

Lemma shape_returned_inv cs evs :
  shape cs (Returned ()) evs ↔ ev_call <$> evs = cs ∧ Forall passed evs.
Proof.
  split.
  - inversion 1; subst. done.
  - intros [??]. by apply shape_returned.
Qed.

Lemma shape_raised_inv cs e evs :
  shape cs (Raised e) evs →
  ∃ evs0 c, evs = evs0 ++ [Event c (Some e)] ∧ Forall passed evs0
            ∧ cs !! length evs0 = Some c.
Proof. inversion 1; subst. eauto. Qed.

(** The result of a body can be read off its trace: it raised [e] exactly
    when the last call made raised [e]. *)
Lemma shape_raised_last cs r evs e :
  shape cs r evs → (r = Raised e ↔ ev_exn <$> last evs = Some (Some e)).
Proof.
  destruct 1 as [evs Hc Hp | evs c e' Hc Hp Hl]; split.
  - done.
  - intros Hlast. destruct (last evs) as [ev|] eqn:Hl; [|done].
    apply last_Some in Hl as [evs' ->].
    rewrite Forall_app, Forall_singleton in Hp. destruct Hp as [_ Hp].
    simpl in Hlast. unfold passed in Hp. congruence.
  - intros [= ->]. by rewrite last_snoc.
  - rewrite last_snoc. simpl. by intros [= ->].
Qed.

Lemma shape_no_later_call cs r evs k ev j c :
  NoDup cs → shape cs r evs → evs !! k = Some ev → ¬ passed ev →
  k < j → cs !! j = Some c → c ∉ ev_call <$> evs.
Proof.
  intros Hnd Hs Hk Hev Hkj Hj Hin.
  pose proof (shape_failure_is_last _ _ _ _ _ Hs Hk Hev) as Hlen.
  rewrite (shape_prefix _ _ _ Hs), Hlen in Hin.
  apply list_elem_of_lookup in Hin as [i Hi].
  apply lookup_take_Some in Hi as [Hi Hlt].
  pose proof (NoDup_lookup _ _ _ _ Hnd Hi Hj). lia.
Qed.

End ShapeFacts.

Lemma script_NoDup sc : NoDup (script sc).
Proof. destruct sc; apply (bool_decide_unpack _); vm_compute; exact I. Qed.

Lemma script_last sc : last (script sc) = Some Close.
Proof. destruct sc; reflexivity. Qed.

Lemma script_length sc :
  length (script sc) = match sc with PageLoad => 6 | AgeVerification => 14 end.
Proof. destruct sc; reflexivity. Qed.

(** ** Order of the steps and end of a run *)

Section RunTheorems.
Context {W E : Type}.
Variable drv : call → W → option E * W.
Implicit Types (w : W) (sc : scenario).

(** Whatever happens, the calls made are an initial part of the script,
    in the order the script is written. *)
Lemma calls_in_declared_order sc w :
  ev_call <$> calls_made drv sc w
  = take (length (calls_made drv sc w)) (script sc).
Proof. eapply shape_prefix, run_shape. Qed.

(** C1.  In both scripts, for every driver and every index [k]: if the
    call numbered [k] raised, the calls made are exactly the first [k+1]
    calls of the script in their order, no call was made after it, no call
    that the script declares later appears among the calls made (so a
    screenshot declared after a failing assertion is not taken), and the
    run did not return normally. *)
Theorem steps_after_failure_never_execute sc w k ev :
  calls_made drv sc w !! k = Some ev →
  ¬ passed ev →
  ev_call <$> calls_made drv sc w = take (S k) (script sc)
  ∧ (∀ j, k < j → calls_made drv sc w !! j = None)
  ∧ (∀ j c, k < j → script sc !! j = Some c →
            c ∉ ev_call <$> calls_made drv sc w)
  ∧ outcome drv sc w ≠ Returned ().
Proof.
  intros Hk Hev. pose proof (run_shape drv sc w) as Hs.
  pose proof (shape_failure_is_last _ _ _ _ _ Hs Hk Hev) as Hlen.
  repeat split.
  - rewrite calls_in_declared_order. by rewrite Hlen.
  - intros j Hj. apply lookup_ge_None. lia.
  - intros j c Hj Hc.
    by eapply shape_no_later_call; eauto using script_NoDup.
  - intros Hret. rewrite Hret in Hs. apply shape_returned_inv in Hs as [_ Hp].
    apply Hev. eapply Forall_lookup_1; eauto.
Qed.

(** C2, as the scripts have it.  A run that returns has closed the
    browser with its last call.  A run in which a call other than
    [browser.close()] raised never calls [browser.close()]: the exception
    leaves [run] with the browser as it was. *)
Theorem close_is_reached_only_by_success sc w :
  (outcome drv sc w = Returned () →
     last (calls_made drv sc w) = Some (Event Close None))
  ∧ (∀ k ev, calls_made drv sc w !! k = Some ev → ¬ passed ev →
       ev_call ev ≠ Close → Close ∉ ev_call <$> calls_made drv sc w).
Proof.
  pose proof (run_shape drv sc w) as Hs. split.
  - intros Hret. rewrite Hret in Hs.
    apply shape_returned_inv in Hs as [Hc Hp].
    pose proof (script_last sc) as Hl. rewrite <- Hc in Hl.
    destruct (last (calls_made drv sc w)) as [[c x]|] eqn:Hlast.
    + apply last_Some in Hlast as [evs Hevs]. rewrite Hevs in Hl, Hp.
      rewrite fmap_app in Hl. simpl in Hl. rewrite last_snoc in Hl.
      injection Hl as ->.
      rewrite Forall_app, Forall_singleton in Hp. destruct Hp as [_ Hp].
      unfold passed in Hp. simpl in Hp. by rewrite Hp.
    + apply last_None in Hlast. rewrite Hlast in Hl. done.
  - intros k ev Hk Hev Hne Hin.
    pose proof (shape_failure_is_last _ _ _ _ _ Hs Hk Hev) as Hlen.
    pose proof (shape_call_at _ _ _ _ _ Hs Hk) as Hck.
    rewrite (shape_prefix _ _ _ Hs), Hlen in Hin.
    apply list_elem_of_lookup in Hin as [i Hi].
    apply lookup_take_Some in Hi as [Hi Hlt].
    pose proof (script_last sc) as Hc. rewrite last_lookup in Hc.
    pose proof (NoDup_lookup _ _ _ _ (script_NoDup sc) Hi Hc) as Hic.
    pose proof (lookup_lt_Some _ _ _ Hck) as Hklt.
    assert (i = k) as -> by lia. congruence.
Qed.

(** C3, as the scripts have it.  [run] returns normally exactly when it
    made every call of its script and none raised.  Otherwise it raises:
    the exception of the first failing call, unchanged, is the result of
    [run], and that call is the last one made.  No result record is built
    and no exception is swallowed. *)
Theorem failure_leaves_run_as_exception sc w :
  (outcome drv sc w = Returned () ↔
     ev_call <$> calls_made drv sc w = script sc
     ∧ Forall passed (calls_made drv sc w))
  ∧ (∀ e, outcome drv sc w = Raised e ↔
       ev_exn <$> last (calls_made drv sc w) = Some (Some e))
  ∧ (∀ k ev e, calls_made drv sc w !! k = Some ev → ev_exn ev = Some e →
       outcome drv sc w = Raised e).
Proof.
  pose proof (run_shape drv sc w) as Hs. split; [split|split].
  - intros Hret. rewrite Hret in Hs. by apply shape_returned_inv in Hs.
  - intros [Hc Hp]. destruct (outcome drv sc w) as [[]|e]; [done|].
    apply shape_raised_inv in Hs as (evs0 & c & Heq & _ & _).
    rewrite Heq, Forall_app, Forall_singleton in Hp. by destruct Hp as [_ Hp].
  - intros e. by eapply shape_raised_last.
  - intros k ev e Hk He.
    assert (¬ passed ev) as Hev by (unfold passed; congruence).
    pose proof (shape_failure_is_last _ _ _ _ _ Hs Hk Hev) as Hlen.
    eapply shape_raised_last; [exact Hs|].
    rewrite last_lookup, Hlen. simpl. rewrite Hk. simpl. by rewrite He.
Qed.

(** The first call of a body is made, whatever the driver answers. *)
Lemma exec_first c cs w :
  ev_call <$> trace (exec drv (c :: cs) (start w)).2 !! 0 = Some c.
Proof.
  simpl. unfold mbind, M_bind, perform. simpl.
  destruct (drv c w) as [[e|] w'] eqn:Hd; [done|].
  destruct (exec_shape drv cs (St w' [Event c None])) as (evs & Ht & _).
  by rewrite Ht.
Qed.

(** Launching the browser is the first call of a run, whatever the
    driver answers: nothing is looked at before it. *)
Lemma run_launches_first sc w :
  ev_call <$> calls_made drv sc w !! 0 = Some (Launch true).
Proof. unfold calls_made. rewrite run_is_exec. apply exec_first. Qed.

End RunTheorems.

(** ** The scripts on the test doubles *)

(** The text assertion of the age script fails on the counting double:
    twelve calls are served, the screenshot and the close are not. *)
Lemma steps_after_failure_never_execute_witness :
  ev_call <$> calls_made (failing_at 11) AgeVerification 0
    = take 12 (script AgeVerification)
  ∧ (∀ j, 11 < j → calls_made (failing_at 11) AgeVerification 0 !! j = None)
  ∧ (∀ j c, 11 < j → script AgeVerification !! j = Some c →
       c ∉ ev_call <$> calls_made (failing_at 11) AgeVerification 0)
  ∧ outcome (failing_at 11) AgeVerification 0 ≠ Returned ().
Proof.
  apply (steps_after_failure_never_execute (failing_at 11) AgeVerification 0 11
           (Event (ToHaveText (Locator form_error_selector)
                     "Please enter a valid date.") (Some "TimeoutError"))).
  - vm_compute. reflexivity.
  - unfold passed. simpl. discriminate.
Defined.

(** C2 refuted as stated.  With the server down, [page.goto] raises in
    the page-load script: [run] ends with that exception, the browser it
    launched is still open and [browser.close()] was never called. *)
Lemma browser_left_open_when_a_step_fails :
  outcome (sim offline) PageLoad fresh = Raised NavigationTimeout
  ∧ is_open (final (sim offline) PageLoad fresh) = true
  ∧ ev_call <$> calls_made (sim offline) PageLoad fresh
    = [Launch true; NewPage; Goto target_url].
Proof. vm_compute. done. Qed.

Lemma close_is_reached_only_by_success_witness :
  last (calls_made steady PageLoad 0) = Some (Event Close None)
  ∧ Close ∉ ev_call <$> calls_made (failing_at 2) PageLoad 0.
Proof.
  split.
  - apply (proj1 (close_is_reached_only_by_success steady PageLoad 0)).
    vm_compute. reflexivity.
  - apply (proj2 (close_is_reached_only_by_success (failing_at 2) PageLoad 0)
             2 (Event (Goto target_url) (Some "TimeoutError"))).
    + vm_compute. reflexivity.
    + unfold passed. simpl. discriminate.
    + simpl. discriminate.
Defined.

(** C3 refuted as stated.  With the screenshot path write-protected, the
    page-load script does not return: the [IOError] of [page.screenshot]
    is the result of [run]. *)
Lemma run_raises_when_the_disk_refuses :
  outcome (sim age_check) PageLoad write_protected = Raised IOError
  ∧ outcome (sim age_check) PageLoad write_protected ≠ Returned ().
Proof. split; [vm_compute; reflexivity | vm_compute; discriminate]. Qed.

Lemma failure_leaves_run_as_exception_witness :
  outcome (failing_at 3) PageLoad 0 = Raised "TimeoutError".
Proof.
  apply (proj2 (proj2 (failure_leaves_run_as_exception (failing_at 3) PageLoad 0))
           3 (Event (ToHaveTitle (Re "PlayNite" true)) (Some "TimeoutError"))).
  - vm_compute. reflexivity.
  - reflexivity.
Defined.

(** ** Text matching in the simulated browser *)

Lemma lower_char_idem c : lower_char (lower_char c) = lower_char c.
Proof. destruct c as [[] [] [] [] [] [] [] []]; reflexivity. Qed.

Lemma lower_upper_char c : lower_char (upper_char c) = lower_char c.
Proof. destruct c as [[] [] [] [] [] [] [] []]; reflexivity. Qed.

Lemma lower_idem s : lower (lower s) = lower s.
Proof. induction s as [|c s IH]; simpl; [done|]. by rewrite lower_char_idem, IH. Qed.

Lemma lower_upper s : lower (upper s) = lower s.
Proof. induction s as [|c s IH]; simpl; [done|]. by rewrite lower_upper_char, IH. Qed.


Lemma ltrim_no_space c s :
  Ascii.is_space c = false → ltrim (String c s) = String c s.
Proof. intros H. simpl. by rewrite H. Qed.

(** ** Locating a control *)

Section SimFacts.
Context {T : Type}.
Variable a : app T.
Implicit Types (w : browser T) (l : locator) (pg : option page).






End SimFacts.

(** ** What a run keeps *)

Section Invariants.
Context {W E : Type}.
Variable drv : call → W → option E * W.

(** A property of the world that every call of a body keeps is kept by
    the body, however it ends. *)
Lemma exec_world_invariant (P : W → Prop) (cs : list call) :
  (∀ c w, c ∈ cs → P w → P (drv c w).2) →
  ∀ s, P (world s) → P (world (exec drv cs s).2).
Proof.
  induction cs as [|c cs IH]; intros Hstep s Hs; [done|].
  simpl. unfold mbind, M_bind, perform.
  pose proof (Hstep c (world s) ltac:(left) Hs) as Hc.
  destruct (drv c (world s)) as [[e|] w']; [done|].
  apply IH; [|done]. intros c' w0 Hin. apply Hstep. by right.
Qed.

Lemma run_world_invariant (P : W → Prop) (sc : scenario) :
  (∀ c w, c ∈ script sc → P w → P (drv c w).2) →
  ∀ w, P w → P (final drv sc w).
Proof.
  intros Hstep w Hw. unfold final. rewrite run_is_exec.
  by apply exec_world_invariant.
Qed.

End Invariants.

Lemma script_screenshot sc path :
  Screenshot path ∈ script sc → path = screenshot_path sc.
Proof.
  destruct sc; simpl; intros H;
    repeat (apply elem_of_cons in H as [H|H]; [try discriminate H|]);
    try (by injection H); by apply elem_of_nil in H.
Qed.

Section SimTheorems.
Context {T : Type}.
Variable a : app T.
Implicit Types (w : browser T) (l : locator).

(** Only [page.screenshot] touches the disk. *)
Lemma sim_keeps_files c w :
  (∀ path, c ≠ Screenshot path) →
  files (sim a c w).2 = files w ∧ dirs (sim a c w).2 = dirs w.
Proof.
  intros Hc. destruct c; simpl; try done.
  - by destruct (serve a url).
  - by destruct (resolve target (shown a w)).
  - destruct (shown a w); [|done]. by destruct (name_matches _ _).
  - destruct (resolve target (shown a w)) as [|el]; [done|].
    by destruct (el_visible el).
  - destruct (resolve target (shown a w)) as [|el]; [done|].
    by destruct (bool_decide _).
  - by destruct (Hc path).
Qed.

(** No call changes which paths can be written. *)
Lemma sim_keeps_read_only c w : read_only (sim a c w).2 = read_only w.
Proof.
  destruct c; simpl; try done.
  - by destruct (serve a url).
  - by destruct (resolve target (shown a w)).
  - destruct (shown a w); [|done]. by destruct (name_matches _ _).
  - destruct (resolve target (shown a w)) as [|el]; [done|].
    by destruct (el_visible el).
  - destruct (resolve target (shown a w)) as [|el]; [done|].
    by destruct (bool_decide _).
  - by destruct (bool_decide _).
Qed.





End SimTheorems.

(** ** The two scenarios on the simulated browser *)

Section Scenarios.
Context {T : Type}.
Variable a : app T.
Implicit Types (w : browser T).

(** C6.  When the application answers the fixed URL with a page whose
    title holds PlayNite in any case of letters, and the screenshot path
    can be written, the page-load script returns normally, and afterwards
    the file at the screenshot path is the image of that page, which is
    not empty. *)
Theorem page_load_passes_and_leaves_an_image w home :
  serve a "http://localhost:9002" = Some home →
  contains "playnite" (lower (title (view a home))) = true →
  "jules-scratch/verification/verification.png" ∉ read_only w →
  outcome (sim a) PageLoad w = Returned ()
  ∧ Forall passed (calls_made (sim a) PageLoad w)
  ∧ files (final (sim a) PageLoad w)
      !! "jules-scratch/verification/verification.png"
    = Some (capture (Some (view a home)))
  ∧ capture (Some (view a home)) ≠ []
  ∧ is_open (final (sim a) PageLoad w) = false.
Proof.
  intros Hserve Htitle Hpath.
  unfold outcome, final, calls_made, run, run_page_load, launch, new_page,
    goto, to_have_title, screenshot, close, mbind, M_bind, perform.
  cbn [sim start world trace fst snd].
  rewrite Hserve.
  cbn [sim start world trace fst snd shown current fmap option_fmap option_map
       name_matches IGNORECASE].
  change (lower "PlayNite") with "playnite". rewrite Htitle.
  cbn [sim start world trace fst snd shown current fmap option_fmap option_map
       read_only files].
  rewrite bool_decide_eq_false_2 by done.
  cbn [sim start world trace fst snd shown current fmap option_fmap option_map
       read_only files is_open].
  split; [done|]. split.
  { repeat (apply Forall_cons; split; [done|]). apply Forall_nil_2. }
  split; [by rewrite lookup_insert_eq|]. split; [|done].
  unfold capture, png_signature. done.
Qed.

End Scenarios.

(** The age script on the age form, up to the screenshot: every call
    goes through, and the form holds 30 February 2000, submitted. *)
Lemma age_script_reaches_the_error (w : browser form) :
  exec (sim age_check) age_script_before_screenshot (start w)
  = (Returned (),
     St (Browser true true (Some february_30_2000)
           (files w) (dirs w) (read_only w))
        ((λ c, Event c None) <$> age_script_before_screenshot)).
Proof. destruct w. vm_compute. reflexivity. Qed.

(** C5.  On the age form, with a writable screenshot path, the age script
    makes exactly its fourteen calls and each goes through: it loads the
    fixed URL, chooses February, 30 and 2000, clicks Enter, finds the
    element with test identifier form-error visible with the exact text,
    takes the screenshot, closes the browser and returns normally.  The
    date chosen is not on the calendar, and the page shows the error. *)
Theorem invalid_date_shows_the_error (w : browser form) :
  "jules-scratch/verification/verification.png" ∉ read_only w →
  outcome (sim age_check) AgeVerification w = Returned ()
  ∧ calls_made (sim age_check) AgeVerification w
    = (λ c, Event c None) <$>
        (age_script_before_screenshot ++
         [Screenshot "jules-scratch/verification/verification.png"; Close])
  ∧ current (final (sim age_check) AgeVerification w) = Some february_30_2000
  ∧ date_ok february_30_2000 = false
  ∧ resolve (Locator form_error_selector)
      (shown age_check (final (sim age_check) AgeVerification w))
    = inr (Element "alert" "" "form-error" "Please enter a valid date." true).
Proof.
  intros Hpath. unfold outcome, final, calls_made. rewrite run_is_exec.
  change (script AgeVerification) with
    (age_script_before_screenshot ++
     [Screenshot "jules-scratch/verification/verification.png"; Close]).
  rewrite exec_app. unfold mbind, M_bind.
  rewrite age_script_reaches_the_error.
  cbn [exec]. unfold mbind, M_bind, perform.
  cbn [sim world trace fst snd read_only].
  rewrite bool_decide_eq_false_2 by done.
  cbn [exec mbind M_bind mret M_ret perform sim world trace fst snd read_only
       current].
  split; [done|]. split; [by rewrite fmap_app, <- app_assoc|].
  split; [done|]. split; [by vm_compute|]. by vm_compute.
Qed.

(** ** The screenshot shared by the two scripts *)

Section SharedImage.
Context {T : Type}.
Variable a : app T.
Implicit Types (w : browser T) (sc : scenario).

(** A run adds no file but the screenshot. *)
Lemma run_adds_only_the_screenshot sc w :
  dom (files (final (sim a) sc w))
  ⊆ dom (files w) ∪ {[ "jules-scratch/verification/verification.png" ]}.
Proof.
  apply (run_world_invariant (sim a)
    (λ w', dom (files w')
           ⊆ dom (files w) ∪ {[ "jules-scratch/verification/verification.png" ]}));
    [|set_solver].
  intros c w' Hin Hw'.
  assert ((∃ path, c = Screenshot path) ∨ ∀ path, c ≠ Screenshot path)
    as [[path ->]|Hno] by (destruct c; eauto).
  - apply script_screenshot in Hin.
    assert (path = "jules-scratch/verification/verification.png") as ->
      by (by destruct sc).
    simpl. destruct (bool_decide _); [done|]. simpl.
    rewrite dom_insert_L. set_solver.
  - by destruct (sim_keeps_files a c w' Hno) as [-> _].
Qed.

(** After a run that returned, the file at the screenshot path is the
    image of the page that run ended on. *)
Lemma returned_run_wrote_its_image sc w :
  outcome (sim a) sc w = Returned () →
  files (final (sim a) sc w) !! "jules-scratch/verification/verification.png"
  = Some (capture (shown a (final (sim a) sc w))).
Proof.
  unfold outcome, final. rewrite run_is_exec.
  assert (∃ pre, script sc
                 = pre ++ [Screenshot "jules-scratch/verification/verification.png";
                           Close]) as [pre ->].
  { destruct sc.
    - by exists [Launch true; NewPage; Goto target_url;
                 ToHaveTitle (Re "PlayNite" true)].
    - by exists age_script_before_screenshot. }
  rewrite exec_app. unfold mbind, M_bind.
  destruct (exec (sim a) pre (start w)) as [[[]|e] s']; [|done].
  cbn [exec]. unfold mbind, M_bind, perform. cbn [sim].
  destruct (bool_decide _); [done|].
  cbn [sim world fst snd files mret M_ret]. intros _.
  by rewrite lookup_insert_eq.
Qed.

Lemma size_with_one_more (X : gset string) (p : string) :
  size (X ∪ {[ p ]}) ≤ S (size X).
Proof.
  destruct (decide (p ∈ X)) as [Hin|Hout].
  - replace (X ∪ {[p]}) with X by set_solver. lia.
  - rewrite size_union by set_solver. rewrite size_singleton. lia.
Qed.

(** C10.  The two scripts name the same relative screenshot path and the
    same URL.  Run one after the other, in either order, on the same
    machine, they leave at most one file more than there was: nothing is
    added but the file at that one path; and when the second run returns,
    that file is the image taken by the second run, whatever the first
    had written there. *)
Theorem both_scripts_share_one_image (first second : scenario) w :
  page_load_screenshot_path = age_verification_screenshot_path
  ∧ (∀ sc, steps sc !! 0 = Some (Goto "http://localhost:9002")
           ∧ last (steps sc)
             = Some (Screenshot "jules-scratch/verification/verification.png"))
  ∧ dom (files (final (sim a) second (final (sim a) first w)))
    ⊆ dom (files w) ∪ {[ "jules-scratch/verification/verification.png" ]}
  ∧ size (files (final (sim a) second (final (sim a) first w)))
    ≤ S (size (files w))
  ∧ (outcome (sim a) second (final (sim a) first w) = Returned () →
     files (final (sim a) second (final (sim a) first w))
       !! "jules-scratch/verification/verification.png"
     = Some (capture (shown a (final (sim a) second (final (sim a) first w))))).
Proof.
  assert (dom (files (final (sim a) second (final (sim a) first w)))
          ⊆ dom (files w) ∪ {[ "jules-scratch/verification/verification.png" ]})
    as Hdom.
  { pose proof (run_adds_only_the_screenshot first w).
    pose proof (run_adds_only_the_screenshot second (final (sim a) first w)).
    set_solver. }
  split; [done|]. split; [by intros []|]. split; [done|]. split.
  - rewrite <- !size_dom.
    etrans; [apply subseteq_size, Hdom|]. apply size_with_one_more.
  - apply returned_run_wrote_its_image.
Qed.

End SharedImage.

(** The page-load script and then the age script, on the age form and a
    fresh machine: the one file left shows the error page, not the page
    the first script had photographed. *)
Lemma both_scripts_share_one_image_witness :
  files (final (sim age_check) AgeVerification
           (final (sim age_check) PageLoad fresh))
    !! "jules-scratch/verification/verification.png"
  = Some (capture (Some (form_view february_30_2000)))
  ∧ files (final (sim age_check) PageLoad fresh)
      !! "jules-scratch/verification/verification.png"
    ≠ Some (capture (Some (form_view february_30_2000))).
Proof.
  split.
  - rewrite (proj2 (proj2 (proj2 (proj2
      (both_scripts_share_one_image age_check PageLoad AgeVerification fresh))))).
    + vm_compute. reflexivity.
    + vm_compute. reflexivity.
  - vm_compute. discriminate.
Defined.

(** ** The theorems at work on the age form *)

Lemma invalid_date_shows_the_error_witness :
  outcome (sim age_check) AgeVerification fresh = Returned ()
  ∧ current (final (sim age_check) AgeVerification fresh)
    = Some february_30_2000.
Proof.
  pose proof (invalid_date_shows_the_error fresh (not_elem_of_empty _))
    as (Hret & _ & Hcur & _).
  exact (conj Hret Hcur).
Defined.

Lemma page_load_passes_and_leaves_an_image_witness :
  outcome (sim age_check) PageLoad fresh = Returned ()
  ∧ files (final (sim age_check) PageLoad fresh)
      !! "jules-scratch/verification/verification.png"
    = Some (capture (Some (form_view (Form None None None None false)))).
Proof.
  pose proof (page_load_passes_and_leaves_an_image age_check fresh
                (Form None None None None false)
                eq_refl eq_refl (not_elem_of_empty _))
    as (Hret & _ & Hfile & _).
  exact (conj Hret Hfile).
Defined.


(** White space around the text is dropped; white space inside it and
    the case of its letters are kept. *)
Example trim_examples :
  trim "  Please enter a valid date.  " = "Please enter a valid date."
  ∧ trim "Please  enter a valid date." ≠ "Please enter a valid date."
  ∧ trim "please enter a valid date." ≠ "Please enter a valid date.".
Proof. repeat split; vm_compute; congruence. Qed.

(** On the first page of the age form: the pattern [month] reaches the
    one combobox named Month, in any case of letters; the pattern [a]
    reaches Day and Year; the pattern [week] reaches nothing. *)
Example click_examples :
  let first_page := final (sim age_check) PageLoad fresh in
  (sim age_check (Click (GetByRole "combobox" (Re "MONTH" true))) first_page).1
    = None
  ∧ (sim age_check (Click (GetByRole "combobox" (Name "a"))) first_page).1
    = Some AmbiguousMatch
  ∧ (sim age_check (Click (GetByRole "combobox" (Re "week" true))) first_page).1
    = Some ElementNotFound.
Proof. vm_compute. done. Qed.

(** * Further properties of the scripts *)

Lemma shape_nonempty {E} (c : call) (cs : list call) (r : res E ())
    (evs : list (event E)) :
  shape (c :: cs) r evs → evs ≠ [].
Proof.
  destruct 1 as [evs Hc Hp | evs c' e Hc Hp Hl].
  - by destruct evs.
  - by destruct evs.
Qed.

(** In a well-shaped trace every event but a last raising one passed. *)
Lemma shape_passed_before {E} (cs : list call) (r : res E ())
    (evs : list (event E)) j ev :
  shape cs r evs → evs !! j = Some ev → S j < length evs → passed ev.
Proof.
  destruct 1 as [evs Hc Hp | evs c e Hc Hp Hl]; intros Hj Hlt.
  - eapply Forall_lookup_1; eauto.
  - rewrite length_app in Hlt. simpl in Hlt.
    rewrite lookup_app_l in Hj by lia. eapply Forall_lookup_1; eauto.
Qed.

Lemma script_screenshot_index sc :
  script sc !! (length (script sc) - 2) = Some (Screenshot (screenshot_path sc)).
Proof. by destruct sc. Qed.

Lemma script_close_index sc :
  script sc !! (length (script sc) - 1) = Some Close.
Proof. by destruct sc. Qed.

Section RunExtras.
Context {W E : Type}.
Variable drv : call → W → option E * W.
Implicit Types (w : W) (sc : scenario).

(** X3.  No call is made twice in a run: the scripts never retry. *)
Theorem no_call_is_repeated sc w : NoDup (ev_call <$> calls_made drv sc w).
Proof.
  rewrite calls_in_declared_order.
  eapply sublist_NoDup; [apply script_NoDup | apply sublist_take].
Qed.

(** X8.  A run makes at least one call and never more calls than its
    script has, six for the page-load script and fourteen for the age
    script; a run that returns made them all. *)
Theorem calls_made_bounds sc w :
  1 ≤ length (calls_made drv sc w)
  ∧ length (calls_made drv sc w)
    ≤ match sc with PageLoad => 6 | AgeVerification => 14 end
  ∧ (outcome drv sc w = Returned () →
     length (calls_made drv sc w)
     = match sc with PageLoad => 6 | AgeVerification => 14 end).
Proof.
  pose proof (run_shape drv sc w) as Hs.
  pose proof (f_equal length (shape_prefix _ _ _ Hs)) as Hlen.
  rewrite length_fmap, length_take, script_length in Hlen.
  split; [|split].
  - pose proof (shape_nonempty _ _ _ _ Hs) as Hne.
    destruct (calls_made drv sc w); [done | simpl; lia].
  - lia.
  - intros Hret. rewrite Hret in Hs. apply shape_returned_inv in Hs as [Hc _].
    rewrite <- (length_fmap ev_call), Hc. apply script_length.
Qed.

(** X5.  A run that got as far as taking the screenshot made every
    earlier call of its script, and each of them passed: the image is
    only taken of a page on which all expectations held. *)
Theorem screenshot_means_the_checks_passed sc w path c :
  Screenshot path ∈ ev_call <$> calls_made drv sc w →
  c ∈ script sc → c ≠ Screenshot path → c ≠ Close →
  Event c None ∈ calls_made drv sc w.
Proof.
  intros Hshot Hc Hns Hnc. pose proof (run_shape drv sc w) as Hs.
  pose proof (script_NoDup sc) as Hnd.
  pose proof (script_screenshot_index sc) as Hsi.
  pose proof (script_close_index sc) as Hci.
  rewrite (shape_prefix _ _ _ Hs) in Hshot.
  apply list_elem_of_lookup in Hshot as [i Hi].
  apply lookup_take_Some in Hi as [Hi Hlt].
  assert (path = screenshot_path sc) as ->.
  { apply script_screenshot, list_elem_of_lookup. eauto. }
  pose proof (NoDup_lookup _ _ _ _ Hnd Hi Hsi) as ->.
  apply list_elem_of_lookup in Hc as [j Hj].
  pose proof (lookup_lt_Some _ _ _ Hj) as Hjlt.
  assert (j ≠ length (script sc) - 2) as Hj2 by (intros ->; congruence).
  assert (j ≠ length (script sc) - 1) as Hj1 by (intros ->; congruence).
  destruct (lookup_lt_is_Some_2 (calls_made drv sc w) j) as [ev Hev]; [lia|].
  pose proof (shape_call_at _ _ _ _ _ Hs Hev) as Hcall.
  pose proof (shape_passed_before _ _ _ _ _ Hs Hev ltac:(lia)) as Hp.
  apply list_elem_of_lookup. exists j. rewrite Hev. f_equal.
  destruct ev as [c' x]. unfold passed in Hp. simpl in *. congruence.
Qed.

(** Whatever only a screenshot can change stays as it was while a body
    takes no screenshot. *)
Lemma exec_untouched {A} (obs : W → A) (cs : list call) :
  (∀ c w, c ∈ cs → (∀ path, c ≠ Screenshot path) →
          obs (drv c w).2 = obs w) →
  ∀ s, ∃ evs, trace (exec drv cs s).2 = trace s ++ evs
    ∧ ((∀ path, Screenshot path ∉ ev_call <$> evs) →
       obs (world (exec drv cs s).2) = obs (world s)).
Proof.
  induction cs as [|c cs IH]; intros Hobs s.
  - exists []. simpl. by rewrite app_nil_r.
  - simpl. unfold mbind, M_bind, perform.
    pose proof (Hobs c (world s) ltac:(left)) as Hc.
    destruct (drv c (world s)) as [[e|] w'].
    + exists [Event c (Some e)]. split; [done|]. intros Hno. simpl. apply Hc.
      intros path ->. apply (Hno path). simpl. left.
    + destruct (IH (λ c' w0 Hin, Hobs c' w0 (list_elem_of_further _ _ _ Hin))
                  (St w' (trace s ++ [Event c None]))) as (evs & Ht & Hkeep).
      exists (Event c None :: evs). split.
      * rewrite Ht. simpl. by rewrite <- app_assoc.
      * intros Hno. rewrite Hkeep.
        -- simpl. apply Hc. intros path ->. apply (Hno path). simpl. left.
        -- intros path Hin. apply (Hno path). simpl. by right.
Qed.

(** X6.  Let [obs] be something of the world that, on this driver, no
    call of the script but a screenshot changes (the files on disk, say).
    Then a run in which no screenshot was taken leaves [obs] as it found
    it, however the run ended. *)
Theorem untouched_until_the_screenshot {A} (obs : W → A) sc w :
  (∀ c w', c ∈ script sc → (∀ path, c ≠ Screenshot path) →
           obs (drv c w').2 = obs w') →
  (∀ path, Screenshot path ∉ ev_call <$> calls_made drv sc w) →
  obs (final drv sc w) = obs w.
Proof.
  intros Hobs Hno. unfold final, calls_made in *. rewrite run_is_exec in *.
  destruct (exec_untouched obs (script sc) Hobs (start w)) as (evs & Ht & Hk).
  apply Hk. intros path. specialize (Hno path). by rewrite Ht in Hno.
Qed.

End RunExtras.

Section RunComparisons.
Context {W E : Type}.
Implicit Types (w : W) (sc : scenario) (drv : call → W → option E * W).

(** A body run on two drivers that answer its calls alike runs alike. *)
Lemma exec_agree drv1 drv2 (cs : list call) :
  (∀ c w, c ∈ cs → drv1 c w = drv2 c w) →
  ∀ s, exec drv1 cs s = exec drv2 cs s.
Proof.
  induction cs as [|c cs IH]; intros Hag s; [done|].
  simpl. unfold mbind, M_bind, perform.
  rewrite (Hag c (world s)) by left.
  destruct (drv2 c (world s)) as [[e|] w']; [done|].
  apply IH. intros c' w0 Hin. apply Hag. by right.
Qed.

(** X7.  A run depends on the driver through the calls of its script
    only: two drivers that answer those calls alike give the same result,
    the same trace and the same final world, whatever they do on any
    other call. *)
Theorem run_sees_only_its_script drv1 drv2 sc w :
  (∀ c w', c ∈ script sc → drv1 c w' = drv2 c w') →
  run drv1 sc (start w) = run drv2 sc (start w).
Proof. intros Hag. rewrite !run_is_exec. by apply exec_agree. Qed.

(** The three calls both scripts start with. *)
Lemma script_opening sc :
  ∃ rest, script sc
          = [Launch true; NewPage; Goto "http://localhost:9002"] ++ rest
          ∧ rest ≠ [].
Proof. destruct sc; eexists; split; try reflexivity; done. Qed.

(** A run is its three opening calls and, if they all pass, the rest of
    its script from the state they left. *)
Lemma run_after_opening drv sc w :
  let opening :=
    exec drv [Launch true; NewPage; Goto "http://localhost:9002"] (start w) in
  match opening.1 with
  | Raised e => run drv sc (start w) = opening
  | Returned _ =>
      length (trace opening.2) = 3
      ∧ ∃ evs, evs ≠ []
          ∧ trace (run drv sc (start w)).2 = trace opening.2 ++ evs
  end.
Proof.
  intros opening. destruct (script_opening sc) as (rest & Hsc & Hrest).
  pose proof (exec_shape drv [Launch true; NewPage; Goto "http://localhost:9002"]
                (start w)) as (evs0 & Ht0 & Hs0).
  fold opening in Ht0, Hs0.
  rewrite run_is_exec, Hsc, exec_app. unfold mbind, M_bind. fold opening.
  destruct opening as [[[]|e] s0]; simpl in *; [|done].
  split.
  - apply shape_returned_inv in Hs0 as [Hc _].
    rewrite Ht0, <- (length_fmap ev_call), Hc. done.
  - destruct (exec_shape drv rest s0) as (evs & Ht & Hs).
    exists evs. split; [|done].
    destruct rest as [|c rest]; [done|]. by eapply shape_nonempty.
Qed.

(** X4.  The two scripts start alike.  From the same world and on the
    same driver their first three calls, and what the driver answered to
    them, are the same; and a page-load run that made no more than three
    calls is, in result, trace and final world, the age run. *)
Theorem scripts_share_their_beginning drv w :
  take 3 (calls_made drv PageLoad w) = take 3 (calls_made drv AgeVerification w)
  ∧ (length (calls_made drv PageLoad w) ≤ 3 →
     run drv PageLoad (start w) = run drv AgeVerification (start w)).
Proof.
  pose proof (run_after_opening drv PageLoad w) as Hp.
  pose proof (run_after_opening drv AgeVerification w) as Ha.
  unfold calls_made. cbv zeta in Hp, Ha.
  set (opening := exec drv [Launch true; NewPage; Goto "http://localhost:9002"]
                    (start w)) in *.
  destruct opening as [[[]|e] s0]; cbn [fst snd] in *.
  - destruct Hp as (Hlen & evp & Hnp & Htp), Ha as (_ & eva & Hna & Hta).
    rewrite Htp, Hta. split.
    + by rewrite !take_app_le, !firstn_all2 by lia.
    + rewrite length_app. intros Hle.
      destruct evp; [done | simpl in Hle; lia].
  - by rewrite Hp, Ha.
Qed.

End RunComparisons.

(** ** The [with] block around [run] *)

(** A body whose last statement is [browser.close()] returned exactly
    when the last call it made is a [browser.close()] that passed. *)
Lemma shape_returned_closed {E} (cs : list call) (r : res E ())
    (evs : list (event E)) :
  shape cs r evs → last cs = Some Close →
  (r = Returned () ↔ last evs = Some (Event Close None)).
Proof.
  destruct 1 as [evs Hc Hp | evs c e Hc Hp Hl]; intros Hlast.
  - split; [intros _|done]. rewrite <- Hc in Hlast.
    destruct (last evs) as [[c x]|] eqn:Hev.
    + apply last_Some in Hev as [evs' Hevs]. rewrite Hevs in Hlast, Hp.
      rewrite fmap_app in Hlast. simpl in Hlast. rewrite last_snoc in Hlast.
      injection Hlast as ->.
      rewrite Forall_app, Forall_singleton in Hp. destruct Hp as [_ Hp].
      unfold passed in Hp. simpl in Hp. by rewrite Hp.
    + apply last_None in Hev. by rewrite Hev in Hlast.
  - rewrite last_snoc. split; [done|]. by intros [= _ ?].
Qed.

Section WithBlock.
Context {W E : Type}.
Variable mgr : manager W E.
Variable drv : call → W → option E * W.
Implicit Types (w : W) (sc : scenario).

(** X2.  With a manager whose [__exit__] neither raises nor asks to drop
    an exception, the script ends normally exactly when [__enter__]
    passed and [run] made every call of its script without an exception;
    and it ends with the uncaught exception [e] exactly when [__enter__]
    raised [e] or the last call [run] made raised [e]. *)
Theorem script_ends_as_its_first_failure sc w :
  (∀ exc w', (leave mgr exc w').1 = Returned false) →
  (result (main mgr drv sc w) = Returned ()
   ↔ (enter mgr w).1 = None
     ∧ ev_call <$> made (main mgr drv sc w) = script sc
     ∧ Forall passed (made (main mgr drv sc w)))
  ∧ (∀ e, result (main mgr drv sc w) = Raised e
     ↔ (enter mgr w).1 = Some e
       ∨ ev_exn <$> last (made (main mgr drv sc w)) = Some (Some e)).
Proof.
  intros Hplain. unfold main.
  destruct (enter mgr w) as [[e0|] w1]; cbn [fst result made].
  - split.
    + split; [done | by intros [? _]].
    + intros e. split; [intros [= ->]; by left|].
      intros [[= ->]|Hl]; [done | by simpl in Hl].
  - pose proof (run_shape drv sc w1) as Hs. unfold outcome, calls_made in Hs.
    rewrite Hplain.
    assert (∀ r : res E (),
              match r with
              | Returned _ => Returned ()
              | Raised e => if false then Returned () else Raised e
              end = r) as Hsame by (by intros [[]|e]).
    rewrite Hsame. split.
    + rewrite <- shape_returned_inv. split.
      * intros Hret. rewrite Hret in Hs. done.
      * intros [_ Hret].
        destruct ((run drv sc (start w1)).1) as [[]|e]; [done|].
        apply shape_raised_inv in Hs as (evs0 & c & Heq & _ & _).
        apply shape_returned_inv in Hret as [_ Hp].
        rewrite Heq, Forall_app, Forall_singleton in Hp.
        by destruct Hp as [_ Hp].
    + intros e. rewrite (shape_raised_last _ _ _ e Hs).
      split; [by right | by intros [?|?]].
Qed.

End WithBlock.

(** ** The further properties on the counting doubles *)

(** The title check of the page-load script fails under the counting
    manager: the script ends with that exception, uncaught. *)
Lemma script_ends_as_its_first_failure_witness :
  result (main counting_manager (failing_at 4) PageLoad 0)
  = Raised "TimeoutError".
Proof.
  apply (proj2 (script_ends_as_its_first_failure counting_manager
                  (failing_at 4) PageLoad 0 (λ _ _, eq_refl))).
  right. vm_compute. reflexivity.
Defined.

(** [browser.close()] raises after the screenshot was taken: every
    call before the screenshot passed, the title check among them. *)
Lemma screenshot_means_the_checks_passed_witness :
  Event (ToHaveTitle (Re "PlayNite" true)) None
  ∈ calls_made (failing_at 5) PageLoad 0.
Proof.
  apply (screenshot_means_the_checks_passed (failing_at 5) PageLoad 0
           "jules-scratch/verification/verification.png").
  - apply (bool_decide_unpack _). vm_compute. exact I.
  - apply (bool_decide_unpack _). vm_compute. exact I.
  - discriminate.
  - discriminate.
Defined.

(** The title check fails on the driver that counts screenshots: the
    count of screenshots is as it was. *)
Lemma untouched_until_the_screenshot_witness :
  (final (shot_counter 3) PageLoad (0, 0)).2 = 0.
Proof.
  apply (untouched_until_the_screenshot (shot_counter 3) snd PageLoad (0, 0)).
  - intros c w' _ Hns. unfold shot_counter.
    destruct (3 =? w'.1); [reflexivity|].
    destruct c; try reflexivity. by destruct (Hns path).
  - intros path Hin. apply list_elem_of_In in Hin. vm_compute in Hin.
    intuition discriminate.
Defined.

(** The page-load script clicks nothing, so it cannot tell the driver
    on which every click raises from the one on which nothing does. *)
Lemma run_sees_only_its_script_witness :
  run steady PageLoad (start 0) = run no_clicks PageLoad (start 0).
Proof.
  apply (run_sees_only_its_script steady no_clicks PageLoad 0).
  intros c w' Hin. apply list_elem_of_In in Hin. simpl in Hin.
  intuition subst; reflexivity.
Defined.

(** Under the counting manager the age script fails at its third
    click: the script ends with that exception, [run] made six calls and
    never got to [browser.close()], and the manager was entered and left,
    which with the six calls makes eight. *)
Example with_block_example :
  result (main counting_manager (failing_at 6) AgeVerification 0)
  = Raised "TimeoutError"
  ∧ length (made (main counting_manager (failing_at 6) AgeVerification 0)) = 6
  ∧ after (main counting_manager (failing_at 6) AgeVerification 0) = 8.
Proof. vm_compute. done. Qed.
